(** * Word finder: frequency maps, the subset check and [findWords]

    A shallow embedding of the three runtime functions of [index.ts]
    ([createFrequencyMap], [canFormString], [findWords]) together with the
    properties their documentation states about them.

    Modelling choices, all taken from the source:

    - A TypeScript [string] is a sequence of UTF-16 code units.  The loop
      [for (const char of inputString)] runs the string iterator, which
      walks the string by code point: a high surrogate directly followed
      by a low surrogate is delivered as one two-unit string, every other
      code unit as a one-unit string.
    - The object [{ [key: string]: number }] is used as a map from property
      name to count: [gmap jsstring N].  Every property name the functions
      ever read is a one code point string, and the standard
      [Object.prototype] has no property with such a name, so reading
      [frequencyMap[char]] is the lookup among the object's own
      properties.  Counts start at [1] and grow by [1] per code point of a
      string, far below the point where a double stops being exact, so
      they are natural numbers.
    - [Object.entries] is the list of own (key, value) pairs; [every] is
      [forallb] over it.
    - [dictionary.reduce(f, [])] is [fold_left] from the empty array, and
      [acc.push(word)] appends at the end. *)

From Stdlib Require Import NArith String Ascii.
From stdpp Require Import gmap list fin_maps numbers.

Local Open Scope N_scope.

(** ** Strings *)

(** One UTF-16 code unit. *)
Definition code_unit : Type := N.

(** A string value: its code units, first to last. *)
Definition jsstring : Type := list code_unit.

Definition is_high_surrogate (u : code_unit) : bool :=
  (0xD800 <=? u) && (u <=? 0xDBFF).

Definition is_low_surrogate (u : code_unit) : bool :=
  (0xDC00 <=? u) && (u <=? 0xDFFF).

(** The values [char] takes in [for (const char of s)], in order. *)
Fixpoint string_iterator (s : jsstring) : list jsstring :=
  match s with
  | [] => []
  | u :: rest =>
      if is_high_surrogate u then
        match rest with
        | v :: rest' =>
            if is_low_surrogate v
            then [u; v] :: string_iterator rest'
            else [u] :: string_iterator rest
        | [] => [[u]]
        end
      else [u] :: string_iterator rest
  end.

(** A string literal of the source whose characters are all ASCII. *)
Fixpoint lit (s : string) : jsstring :=
  match s with
  | EmptyString => []
  | String a rest => N_of_ascii a :: lit rest
  end.

(** ** The three functions of [index.ts] *)

(** One round of the loop body:
    [frequencyMap[char] = (frequencyMap[char] ?? 0) + 1]. *)
Definition count_char (frequencyMap : gmap jsstring N) (char : jsstring)
  : gmap jsstring N :=
  <[char := default 0 (frequencyMap !! char) + 1]> frequencyMap.

Definition createFrequencyMap (inputString : jsstring) : gmap jsstring N :=
  fold_left count_char (string_iterator inputString) ∅.

(** The callback given to [every]:
    [map1[char] !== undefined && map1[char] >= frequency]. *)
Definition entry_covered (map1 : gmap jsstring N) (entry : jsstring * N) : bool :=
  let '(char, frequency) := entry in
  match map1 !! char with
  | Some available => frequency <=? available
  | None => false
  end.

Definition canFormString (map1 map2 : gmap jsstring N) : bool :=
  forallb (entry_covered map1) (map_to_list map2).

Definition findWords (inputString : jsstring) (dictionary : list jsstring)
  : list jsstring :=
  let inputStringFrequencyMap := createFrequencyMap inputString in
  fold_left
    (fun (acc : list jsstring) (word : jsstring) =>
       let wordFrequencyMap := createFrequencyMap word in
       if canFormString inputStringFrequencyMap wordFrequencyMap
       then acc ++ [word]
       else acc)
    dictionary [].

(** ** Notions the statements are phrased with *)

(** How many of the iterated characters [chars] are exactly [c]. *)
Fixpoint occurrences (c : jsstring) (chars : list jsstring) : N :=
  match chars with
  | [] => 0
  | x :: chars' => (if bool_decide (x = c) then 1 else 0) + occurrences c chars'
  end.

(** [big] has every key of [small], with a count at least as large. *)
Definition dominates (big small : gmap jsstring N) : Prop :=
  ∀ c n, small !! c = Some n → ∃ n', big !! c = Some n' ∧ n ≤ n'.

(** The sum of all the counts stored in a frequency map. *)
Definition total_count (m : gmap jsstring N) : N :=
  map_fold (λ _ n acc, n + acc) 0 m.

(** The test [findWords] applies to one dictionary word. *)
Definition formable (inputString word : jsstring) : bool :=
  canFormString (createFrequencyMap inputString) (createFrequencyMap word).

(** ** The same functions with the store they run on

    The functions above are written as values computed from values.  The
    source builds its results by mutation: [frequencyMap] is an object that
    the loop updates in place, [acc] is an array that [push] extends in
    place, and the dictionary is an array the caller owns.  The module
    below keeps that store explicit: objects and arrays live at locations,
    a variable holds a location, and every read and write names the
    location it touches.  A computation fails only when it finds something
    other than the kind of cell its type promises. *)

Module Heap.

Definition loc : Type := positive.

Inductive cell : Type :=
| Arr (items : list jsstring)
| Obj (props : gmap jsstring N).

Abbreviation heap := (gmap loc cell).

Definition M (A : Type) : Type := heap → option (A * heap).

Definition ret {A} (a : A) : M A := λ h, Some (a, h).

Definition bind {A B} (c : M A) (k : A → M B) : M B :=
  λ h, match c h with
       | Some (a, h') => k a h'
       | None => None
       end.

Notation "'let*' x ':=' c 'in' k" := (bind c (λ x, k))
  (at level 10, x name, c at level 100, k at level 200, only parsing).

(** [{}], [[]]: a new cell at a location nothing refers to yet. *)
Definition alloc (c : cell) : M loc :=
  λ h, let l := fresh (dom h) in Some (l, <[l := c]> h).

(** [o[key]] read; [None] is [undefined]. *)
Definition get_prop (o : loc) (key : jsstring) : M (option N) :=
  λ h, match h !! o with
       | Some (Obj props) => Some (props !! key, h)
       | _ => None
       end.

(** [o[key] = v]. *)
Definition set_prop (o : loc) (key : jsstring) (v : N) : M unit :=
  λ h, match h !! o with
       | Some (Obj props) => Some (tt, <[o := Obj (<[key := v]> props)]> h)
       | _ => None
       end.

(** [Object.entries(o)]. *)
Definition entries (o : loc) : M (list (jsstring * N)) :=
  λ h, match h !! o with
       | Some (Obj props) => Some (map_to_list props, h)
       | _ => None
       end.

(** [a.length]. *)
Definition array_length (a : loc) : M nat :=
  λ h, match h !! a with
       | Some (Arr items) => Some (length items, h)
       | _ => None
       end.

(** [a[k]], with [None] when [k] is not an index of [a]. *)
Definition array_get (a : loc) (k : nat) : M (option jsstring) :=
  λ h, match h !! a with
       | Some (Arr items) => Some (items !! k, h)
       | _ => None
       end.

(** [a.push(x)]. *)
Definition push (a : loc) (x : jsstring) : M unit :=
  λ h, match h !! a with
       | Some (Arr items) => Some (tt, <[a := Arr (items ++ [x])]> h)
       | _ => None
       end.

(** [for (const char of ...) body]. *)
Fixpoint for_of (chars : list jsstring) (body : jsstring → M unit) : M unit :=
  match chars with
  | [] => ret tt
  | char :: chars' => let* _ := body char in for_of chars' body
  end.

(** [Array.prototype.every]: stops at the first entry the callback
    rejects. *)
Fixpoint every (es : list (jsstring * N)) (callback : jsstring * N → M bool)
  : M bool :=
  match es with
  | [] => ret true
  | e :: es' =>
      let* ok := callback e in
      if ok : bool then every es' callback else ret false
  end.

(** [Array.prototype.reduce] with an initial value: the length is read
    once, then each index below it is visited in order and read at the
    time of its visit; an index that is not present is skipped. *)
Fixpoint reduce_from (todo k : nat) (a : loc)
    (callback : loc → jsstring → M loc) (acc : loc) : M loc :=
  match todo with
  | O => ret acc
  | S todo' =>
      let* x := array_get a k in
      match x with
      | Some item =>
          let* acc' := callback acc item in
          reduce_from todo' (S k) a callback acc'
      | None => reduce_from todo' (S k) a callback acc
      end
  end.

Definition reduce (a : loc) (callback : loc → jsstring → M loc) (init : loc)
  : M loc :=
  let* len := array_length a in
  reduce_from len 0 a callback init.

(** The loop body of [createFrequencyMap]. *)
Definition count_char (frequencyMap : loc) (char : jsstring) : M unit :=
  let* old := get_prop frequencyMap char in
  set_prop frequencyMap char (default 0 old + 1).

Definition createFrequencyMap (inputString : jsstring) : M loc :=
  let* frequencyMap := alloc (Obj ∅) in
  let* _ := for_of (string_iterator inputString) (count_char frequencyMap) in
  ret frequencyMap.

(** The callback of [canFormString]; [map1[char]] is read twice, once
    for each side of the [&&]. *)
Definition entry_covered (map1 : loc) (entry : jsstring * N) : M bool :=
  let '(char, frequency) := entry in
  let* defined := get_prop map1 char in
  match defined with
  | None => ret false
  | Some _ =>
      let* available := get_prop map1 char in
      ret (match available with
           | Some n => frequency <=? n
           | None => false
           end)
  end.

Definition canFormString (map1 map2 : loc) : M bool :=
  let* es := entries map2 in
  every es (entry_covered map1).

(** The callback of the reduction in [findWords]. *)
Definition collect (inputStringFrequencyMap : loc) (acc : loc)
    (word : jsstring) : M loc :=
  let* wordFrequencyMap := createFrequencyMap word in
  let* formable := canFormString inputStringFrequencyMap wordFrequencyMap in
  let* _ := if formable : bool then push acc word else ret tt in
  ret acc.

Definition findWords (inputString : jsstring) (dictionary : loc) : M loc :=
  let* inputStringFrequencyMap := createFrequencyMap inputString in
  let* init := alloc (Arr []) in
  reduce dictionary (collect inputStringFrequencyMap) init.

(** What a run leaves visible: the array a location holds. *)
Definition array_at (h : heap) (l : loc) : option (list jsstring) :=
  match h !! l with
  | Some (Arr items) => Some items
  | _ => None
  end.

Definition object_at (h : heap) (l : loc) : option (gmap jsstring N) :=
  match h !! l with
  | Some (Obj props) => Some props
  | _ => None
  end.

End Heap.

(** What a caller can observe of a run of [c] from the store [h]: the
    value it returns, and that every cell of [h] is still there, unchanged. *)
Definition returns_array (c : Heap.M Heap.loc) (h : Heap.heap)
    (R : list jsstring) : Prop :=
  ∃ r h', c h = Some (r, h') ∧ Heap.array_at h' r = Some R ∧ h ⊆ h'.

Definition returns_object (c : Heap.M Heap.loc) (h : Heap.heap)
    (m : gmap jsstring N) : Prop :=
  ∃ r h', c h = Some (r, h') ∧ Heap.object_at h' r = Some m ∧ h ⊆ h'.

Definition returns_bool (c : Heap.M bool) (h : Heap.heap) (b : bool) : Prop :=
  c h = Some (b, h).

(** The seam of [s1 ++ s2] joins a high surrogate that ends [s1] to a low
    surrogate that starts [s2]: the only case in which iterating the
    concatenation differs from iterating the two parts. *)
Definition splits_pair (s1 s2 : jsstring) : bool :=
  match list.last s1, head s2 with
  | Some u, Some v => is_high_surrogate u && is_low_surrogate v
  | _, _ => false
  end.

(** ** The type aliases of [types.ts]

    [types.ts] writes the three functions a second time, as type aliases
    the type checker evaluates on literal types; [index.ts] casts its
    results to them.  Here a string literal type is the string it names, an
    object type whose properties are number literal types is a map, a
    tuple of string literal types is a list, and a union of [true] and
    [false] is one of [never], [true], [false], [boolean].

    - [S extends `${infer Char}${infer Rest}`] matches a non-empty literal:
      [Char] is its first code unit and [Rest] what follows.
    - [Lowercase] is an intrinsic of the checker, taken as a parameter.
    - [Add] and [LtOrEq] are imported from [ts-arithmetic]: the sum of two
      number literal types, and [1] or [0] as the first is at most the
      second or not.
    - [Omit<Acc, K> & { [k in K]: v }] is [Acc] with the property [K]
      removed and then declared with type [v].

    The aliases are read as the equations they state; the instantiation
    limits the checker puts on long literals are not part of them. *)

Module Types.

Inductive boolean_type : Type := TNever | TTrue | TFalse | TBoolean.

(** [a | b]. *)
Definition union (a b : boolean_type) : boolean_type :=
  match a, b with
  | TNever, t | t, TNever => t
  | TTrue, TTrue => TTrue
  | TFalse, TFalse => TFalse
  | _, _ => TBoolean
  end.

(** [[T] extends [never]]. *)
Definition extends_never (T : boolean_type) : bool :=
  match T with TNever => true | _ => false end.

(** [[boolean] extends [T]]. *)
Definition boolean_extends (T : boolean_type) : bool :=
  match T with TBoolean => true | _ => false end.

(** [T extends true], for a [T] that is not a bare type parameter. *)
Definition extends_true (T : boolean_type) : bool :=
  match T with TNever | TTrue => true | _ => false end.

Definition Add (a b : N) : N := a + b.

Definition LtOrEq (a b : N) : N := if a <=? b then 1 else 0.

Definition NormalizeBoolean (T : boolean_type) : boolean_type :=
  if extends_never T then TTrue
  else if boolean_extends T then TFalse
  else T.

(** The property type the mapped type of [CanFormString] gives key [K]. *)
Definition key_answer (S1 : gmap jsstring N) (entry : jsstring * N)
  : boolean_type :=
  let '(K, n2) := entry in
  match S1 !! K with
  | Some n1 => if LtOrEq n2 n1 =? 1 then TTrue else TFalse
  | None => TFalse
  end.

(** The mapped type indexed by [keyof S2] is the union of its property
    types. *)
Definition CanFormString (S1 S2 : gmap jsstring N) : boolean_type :=
  NormalizeBoolean (foldr union TNever (map (key_answer S1) (map_to_list S2))).

Section Aliases.
Variable Lowercase : jsstring → jsstring.

Fixpoint StringToFrequencyMap (S : jsstring) (Acc : gmap jsstring N)
  : gmap jsstring N :=
  match S with
  | Char :: Rest =>
      let K := Lowercase [Char] in
      StringToFrequencyMap Rest
        (<[K := match Acc !! K with
                | Some n => Add n 1
                | None => 1
                end]> (delete K Acc))
  | [] => Acc
  end.

Fixpoint FindWords (S : jsstring) (Dict Acc : list jsstring)
    (Smap : gmap jsstring N) : list jsstring :=
  match Dict with
  | Head :: Tail =>
      if extends_true (CanFormString Smap (StringToFrequencyMap Head ∅))
      then FindWords S Tail (Acc ++ [Head]) Smap
      else FindWords S Tail Acc Smap
  | [] => Acc
  end.


End Aliases.

(** What [toLowerCase] does to a string of ASCII characters; it stands for
    [Lowercase] in the examples. *)
Definition ascii_lowercase (s : jsstring) : jsstring :=
  map (λ u, if (0x41 <=? u) && (u <=? 0x5A) then u + 0x20 else u) s.

End Types.

(** * Facts about the loop of [createFrequencyMap] *)

Section FrequencyLoop.
Implicit Types (m : gmap jsstring N) (c char : jsstring) (chars : list jsstring).

Lemma count_char_same m c :
  count_char m c !! c = Some (default 0 (m !! c) + 1).
Proof. unfold count_char. apply lookup_insert_eq. Qed.

Lemma count_char_other m char c :
  char ≠ c → count_char m char !! c = m !! c.
Proof. intros Hne. unfold count_char. by rewrite lookup_insert_ne. Qed.

Lemma fold_count_char_lookup chars : ∀ m c,
  fold_left count_char chars m !! c =
    if occurrences c chars =? 0 then m !! c
    else Some (default 0 (m !! c) + occurrences c chars).
Proof.
  induction chars as [|x chars IH]; intros m c; simpl; [done|].
  rewrite IH. case_bool_decide as Hx.
  - subst x. rewrite count_char_same. simpl.
    destruct (N.eqb_spec (occurrences c chars) 0) as [->|Hn];
      destruct (N.eqb_spec (1 + occurrences c chars) 0); try lia.
    + f_equal; lia.
    + f_equal; lia.
  - rewrite count_char_other by done. by rewrite N.add_0_l.
Qed.

Lemma occurrences_pos c chars : 0 < occurrences c chars ↔ c ∈ chars.
Proof.
  induction chars as [|x chars IH]; simpl.
  - split; [lia | by intros ?%elem_of_nil].
  - rewrite elem_of_cons.
    case_bool_decide as Hx; subst; split; intros Hocc; try lia.
    + by left.
    + right. apply IH. lia.
    + destruct Hocc as [->|Hocc]; [done|]. apply IH in Hocc. lia.
Qed.

Lemma occurrences_filter c chars :
  occurrences c chars = N.of_nat (length (filter (λ x, x = c) chars)).
Proof.
  induction chars as [|x chars IH]; simpl; [done|].
  rewrite filter_cons. case_bool_decide; case_decide; try done; simpl; lia.
Qed.

Lemma createFrequencyMap_lookup s c :
  createFrequencyMap s !! c =
    if occurrences c (string_iterator s) =? 0 then None
    else Some (occurrences c (string_iterator s)).
Proof.
  unfold createFrequencyMap. rewrite fold_count_char_lookup, lookup_empty.
  simpl. by rewrite N.add_0_l.
Qed.

Lemma string_iterator_nil s : string_iterator s = [] ↔ s = [].
Proof.
  split; [|by intros ->].
  destruct s as [|u rest]; [done|]. simpl.
  destruct (is_high_surrogate u); [|done].
  destruct rest as [|v rest']; [done|]. by destruct (is_low_surrogate v).
Qed.

(** A string without surrogate code units is iterated unit by unit. *)
Lemma string_iterator_bmp s :
  Forall (λ u, is_high_surrogate u = false) s →
  string_iterator s = map (λ u, [u]) s.
Proof.
  induction 1 as [|u rest Hu _ IH]; simpl; [done|]. by rewrite Hu, IH.
Qed.

Lemma createFrequencyMap_nil : createFrequencyMap [] = ∅.
Proof. reflexivity. Qed.

Lemma createFrequencyMap_empty_iff s : createFrequencyMap s = ∅ ↔ s = [].
Proof.
  split; [|by intros ->].
  intros Hempty. apply string_iterator_nil.
  destruct (string_iterator s) as [|c chars] eqn:E; [done|].
  pose proof (createFrequencyMap_lookup s c) as Hc.
  rewrite Hempty, lookup_empty, E in Hc. simpl in Hc.
  rewrite bool_decide_eq_true_2 in Hc by done.
  destruct (N.eqb_spec (1 + occurrences c chars) 0); [lia | done].
Qed.

Lemma total_count_empty : total_count ∅ = 0.
Proof. apply map_fold_empty. Qed.

Lemma total_count_insert_fresh m c n :
  m !! c = None → total_count (<[c := n]> m) = n + total_count m.
Proof.
  intros Hc. unfold total_count.
  rewrite map_fold_insert_L; [done| |done]. intros; lia.
Qed.

Lemma total_count_count_char m c :
  total_count (count_char m c) = total_count m + 1.
Proof.
  unfold count_char. destruct (m !! c) as [n|] eqn:Hc; simpl.
  - rewrite <- insert_delete_eq.
    rewrite total_count_insert_fresh by apply lookup_delete_eq.
    unfold total_count at 2.
    rewrite (map_fold_delete_L _ _ c n m); [|intros; lia|done].
    fold (total_count (delete c m)). lia.
  - rewrite total_count_insert_fresh by done. lia.
Qed.

Lemma total_count_fold chars : ∀ m,
  total_count (fold_left count_char chars m)
  = total_count m + N.of_nat (length chars).
Proof.
  induction chars as [|c chars IH]; intros m; simpl; [lia|].
  rewrite IH, total_count_count_char. lia.
Qed.
End FrequencyLoop.

(** * Facts about the subset check *)

Section SubsetCheck.
Implicit Types (source target : gmap jsstring N).

Lemma canFormString_true source target :
  canFormString source target = true ↔
  ∀ key n, target !! key = Some n → ∃ n', source !! key = Some n' ∧ n ≤ n'.
Proof.
  unfold canFormString. rewrite forallb_forall. split.
  - intros Hall key n Hkey.
    specialize (Hall (key, n)). simpl in Hall.
    destruct (source !! key) as [n'|] eqn:E.
    + exists n'. split; [done|]. apply N.leb_le, Hall.
      by apply list_elem_of_In, elem_of_map_to_list.
    + discriminate Hall. by apply list_elem_of_In, elem_of_map_to_list.
  - intros Hcov [key n] Hin. simpl.
    apply list_elem_of_In, elem_of_map_to_list in Hin.
    destruct (Hcov key n Hin) as (n' & -> & Hle). by apply N.leb_le.
Qed.

Lemma canFormString_dominates source target :
  canFormString source target = true ↔ dominates source target.
Proof. apply canFormString_true. Qed.

Lemma canFormString_empty_target source : canFormString source ∅ = true.
Proof. unfold canFormString. by rewrite map_to_list_empty. Qed.

Lemma canFormString_empty_source target :
  target ≠ ∅ → canFormString ∅ target = false.
Proof.
  intros Hne. apply not_true_is_false. rewrite canFormString_true.
  intros Hcov. apply Hne, map_empty. intros key.
  destruct (target !! key) as [n|] eqn:E; [|done].
  destruct (Hcov key n E) as (n' & Hn' & _). by rewrite lookup_empty in Hn'.
Qed.
End SubsetCheck.

(** * Facts about the reduction in [findWords] *)

Section Reduction.
Implicit Types (s word : jsstring) (D acc : list jsstring).

Lemma findWords_fold_acc s D : ∀ acc,
  fold_left
    (fun (acc : list jsstring) (word : jsstring) =>
       let wordFrequencyMap := createFrequencyMap word in
       if canFormString (createFrequencyMap s) wordFrequencyMap
       then acc ++ [word]
       else acc)
    D acc
  = acc ++ List.filter (formable s) D.
Proof.
  induction D as [|word D IH]; intros acc; simpl.
  - by rewrite app_nil_r.
  - rewrite IH. unfold formable at 2.
    destruct (canFormString _ _); [by rewrite <- app_assoc | done].
Qed.

Lemma findWords_filter s D : findWords s D = List.filter (formable s) D.
Proof. unfold findWords. by rewrite findWords_fold_acc. Qed.

Lemma List_filter_sublist (f : jsstring → bool) D :
  List.filter f D `sublist_of` D.
Proof.
  induction D as [|w D IH]; simpl; [constructor|].
  destruct (f w); by constructor.
Qed.

Lemma formable_empty_input word : formable [] word = bool_decide (word = []).
Proof.
  unfold formable. rewrite createFrequencyMap_nil.
  case_bool_decide as Hw.
  - subst word. apply canFormString_empty_target.
  - apply canFormString_empty_source. by rewrite createFrequencyMap_empty_iff.
Qed.

Lemma List_filter_ext_in (f g : jsstring → bool) D :
  (∀ w, f w = g w) → List.filter f D = List.filter g D.
Proof. intros Hfg. apply List.filter_ext. exact Hfg. Qed.

Lemma List_filter_nil_iff (f : jsstring → bool) D :
  List.filter f D = [] ↔ ∀ w, w ∈ D → f w = false.
Proof.
  induction D as [|x D IH]; simpl.
  - split; [by intros _ w ?%elem_of_nil | done].
  - destruct (f x) eqn:Hx; split.
    + discriminate.
    + intros Hall. specialize (Hall x (list_elem_of_here _ _)). congruence.
    + intros Hnil w [->|Hin]%elem_of_cons; [done|]. by apply IH.
    + intros Hall. apply IH. intros w Hin. apply Hall. by right.
Qed.

Lemma List_filter_all (f : jsstring → bool) D :
  Forall (λ w, f w = true) D → List.filter f D = D.
Proof. induction 1 as [|w D Hw _ IH]; simpl; [done|]. by rewrite Hw, IH. Qed.
End Reduction.

(** * The store-passing functions compute the same values *)

Section StoreRuns.
Implicit Types (h : Heap.heap) (l d a : Heap.loc) (s word : jsstring)
  (m : gmap jsstring N) (D acc : list jsstring).

Lemma fresh_unused h : h !! fresh (dom h) = None.
Proof. apply not_elem_of_dom, is_fresh. Qed.

Lemma fresh_other h l : is_Some (h !! l) → l ≠ fresh (dom h).
Proof. intros [c Hc] ->. by rewrite fresh_unused in Hc. Qed.

Lemma bind_run {A B} (c : Heap.M A) (k : A → Heap.M B) h x h' :
  c h = Some (x, h') → Heap.bind c k h = k x h'.
Proof. unfold Heap.bind. by intros ->. Qed.

Lemma for_of_count_run chars : ∀ h l m,
  Heap.for_of chars (Heap.count_char l) (<[l := Heap.Obj m]> h)
  = Some (tt, <[l := Heap.Obj (fold_left count_char chars m)]> h).
Proof.
  induction chars as [|char chars IH]; intros h l m; simpl; [done|].
  erewrite bind_run; [apply IH|].
  unfold Heap.count_char, Heap.bind, Heap.get_prop, Heap.set_prop.
  rewrite lookup_insert_eq. cbv beta iota.
  by rewrite lookup_insert_eq, insert_insert_eq.
Qed.

Lemma createFrequencyMap_run s h :
  Heap.createFrequencyMap s h
  = Some (fresh (dom h),
          <[fresh (dom h) := Heap.Obj (createFrequencyMap s)]> h).
Proof.
  unfold Heap.createFrequencyMap.
  erewrite bind_run by reflexivity.
  erewrite bind_run by apply for_of_count_run.
  done.
Qed.

Lemma entry_covered_run h l m e :
  h !! l = Some (Heap.Obj m) →
  Heap.entry_covered l e h = Some (entry_covered m e, h).
Proof.
  intros Hl. destruct e as [char frequency].
  unfold Heap.entry_covered, entry_covered, Heap.bind, Heap.get_prop.
  rewrite Hl. destruct (m !! char) as [n|] eqn:E; [|done].
  by rewrite Hl, E.
Qed.

Lemma every_run h l m es :
  h !! l = Some (Heap.Obj m) →
  Heap.every es (Heap.entry_covered l) h
  = Some (forallb (entry_covered m) es, h).
Proof.
  intros Hl. induction es as [|e es IH]; simpl; [done|].
  erewrite bind_run by by apply entry_covered_run.
  by destruct (entry_covered m e).
Qed.

Lemma canFormString_run h l1 l2 m1 m2 :
  h !! l1 = Some (Heap.Obj m1) →
  h !! l2 = Some (Heap.Obj m2) →
  Heap.canFormString l1 l2 h = Some (canFormString m1 m2, h).
Proof.
  intros H1 H2. unfold Heap.canFormString.
  erewrite bind_run; [by apply every_run|].
  unfold Heap.entries. by rewrite H2.
Qed.

Lemma collect_run h l a m acc word :
  h !! l = Some (Heap.Obj m) →
  h !! a = Some (Heap.Arr acc) →
  Heap.collect l a word h
  = Some (a, <[a := Heap.Arr (if canFormString m (createFrequencyMap word)
                              then acc ++ [word] else acc)]>
               (<[fresh (dom h) := Heap.Obj (createFrequencyMap word)]> h)).
Proof.
  intros Hl Ha. unfold Heap.collect.
  erewrite bind_run by apply createFrequencyMap_run.
  assert (l ≠ fresh (dom h)) as Hfl by (by apply fresh_other).
  assert (a ≠ fresh (dom h)) as Hfa by (by apply fresh_other).
  erewrite bind_run; cycle 1.
  { apply canFormString_run with (m1 := m) (m2 := createFrequencyMap word).
    - by rewrite lookup_insert_ne.
    - apply lookup_insert_eq. }
  destruct (canFormString m (createFrequencyMap word)).
  - erewrite bind_run; [done|].
    unfold Heap.push. by rewrite lookup_insert_ne, Ha.
  - erewrite bind_run by reflexivity. unfold Heap.ret.
    rewrite (insert_id _ a); [done|]. by rewrite lookup_insert_ne.
Qed.

(** The reduction visits the dictionary in place.  The cells it writes
    are the accumulator and the word maps it allocates; everything that
    was in the store before, the dictionary included, is left as it
    was. *)
Lemma reduce_from_run d l a m D (Had : a ≠ d) : ∀ todo k acc h,
  h !! d = Some (Heap.Arr D) →
  h !! l = Some (Heap.Obj m) →
  h !! a = Some (Heap.Arr acc) →
  ∃ h',
    Heap.reduce_from todo k d (Heap.collect l) a h = Some (a, h') ∧
    h' !! a = Some (Heap.Arr
      (acc ++ List.filter (λ w, canFormString m (createFrequencyMap w))
                (take todo (drop k D)))) ∧
    ∀ l', l' ≠ a → is_Some (h !! l') → h' !! l' = h !! l'.
Proof.
  induction todo as [|todo IH]; intros k acc h Hd Hl Ha; simpl.
  - exists h. by rewrite app_nil_r.
  - erewrite bind_run; cycle 1.
    { unfold Heap.array_get. by rewrite Hd. }
    destruct (D !! k) as [word|] eqn:Hk.
    + erewrite bind_run by by eapply collect_run.
      set (lw := fresh (dom h)).
      set (acc' := if canFormString m (createFrequencyMap word)
                   then acc ++ [word] else acc).
      set (h1 := <[a := Heap.Arr acc']>
                   (<[lw := Heap.Obj (createFrequencyMap word)]> h)).
      assert (∀ l', l' ≠ a → is_Some (h !! l') → h1 !! l' = h !! l')
        as Hkeep.
      { intros l' Hne Hsome. unfold h1.
        rewrite lookup_insert_ne by done.
        rewrite lookup_insert_ne; [done|].
        symmetry. by apply fresh_other. }
      destruct (IH (S k) acc' h1) as (h' & Hrun & Hres & Hframe).
      { rewrite Hkeep; eauto. }
      { destruct (decide (l = a)) as [->|Hne]; [congruence|].
        rewrite Hkeep; eauto. }
      { unfold h1. apply lookup_insert_eq. }
      exists h'. split; [done|]. split.
      * rewrite Hres. f_equal. f_equal.
        rewrite (drop_S _ _ _ Hk). simpl. unfold acc'.
        destruct (canFormString m (createFrequencyMap word));
          [by rewrite <- app_assoc | done].
      * intros l' Hne Hsome. rewrite Hframe; [by apply Hkeep|done|].
        rewrite Hkeep; done.
    + destruct (IH (S k) acc h Hd Hl Ha) as (h' & Hrun & Hres & Hframe).
      exists h'. split; [done|]. split; [|done].
      rewrite Hres. apply lookup_ge_None in Hk.
      rewrite !drop_ge by lia. by rewrite !take_nil.
Qed.

Lemma findWords_run s d D h :
  h !! d = Some (Heap.Arr D) →
  ∃ r h',
    Heap.findWords s d h = Some (r, h') ∧
    h' !! r = Some (Heap.Arr (findWords s D)) ∧
    h !! r = None ∧
    h ⊆ h'.
Proof.
  intros Hd. unfold Heap.findWords.
  erewrite bind_run by apply createFrequencyMap_run.
  set (l := fresh (dom h)).
  set (h1 := <[l := Heap.Obj (createFrequencyMap s)]> h).
  erewrite bind_run by reflexivity.
  set (a := fresh (dom h1)).
  set (h2 := <[a := Heap.Arr []]> h1).
  assert (d ≠ l) as Hdl by (apply fresh_other; eauto).
  assert (h1 !! d = Some (Heap.Arr D)) as Hd1.
  { unfold h1. by rewrite lookup_insert_ne. }
  assert (d ≠ a) as Hda by (apply fresh_other; eauto).
  assert (l ≠ a) as Hla.
  { apply fresh_other. unfold h1. rewrite lookup_insert_eq. eauto. }
  assert (h !! a = None) as Hfresh.
  { destruct (h !! a) as [c|] eqn:E; [|done].
    assert (h1 !! a = Some c) as E1.
    { unfold h1. by rewrite lookup_insert_ne. }
    pose proof (fresh_unused h1) as Hn. fold a in Hn. congruence. }
  unfold Heap.reduce.
  erewrite bind_run; cycle 1.
  { unfold Heap.array_length, h2. rewrite lookup_insert_ne by done.
    by rewrite Hd1. }
  destruct (reduce_from_run d l a (createFrequencyMap s) D
              (not_eq_sym Hda) (length D) 0%nat [] h2)
    as (h' & Hrun & Hres & Hframe).
  { unfold h2. by rewrite lookup_insert_ne. }
  { unfold h2, h1. rewrite lookup_insert_ne by done. apply lookup_insert_eq. }
  { unfold h2. apply lookup_insert_eq. }
  exists a, h'. split; [done|]. split; [|split; [done|]].
  - rewrite Hres. rewrite drop_0, firstn_all. simpl.
    by rewrite findWords_filter.
  - apply map_subseteq_spec. intros l' c Hc.
    assert (l' ≠ a) as Hne by (intros ->; congruence).
    assert (l' ≠ l) as Hne' by (apply fresh_other; eauto).
    assert (h2 !! l' = Some c) as Hc2.
    { unfold h2, h1. by rewrite !lookup_insert_ne. }
    rewrite Hframe; eauto.
Qed.

Lemma array_at_Some h l D :
  Heap.array_at h l = Some D ↔ h !! l = Some (Heap.Arr D).
Proof.
  unfold Heap.array_at. destruct (h !! l) as [[items|props]|]; naive_solver.
Qed.

Lemma object_at_Some h l m :
  Heap.object_at h l = Some m ↔ h !! l = Some (Heap.Obj m).
Proof.
  unfold Heap.object_at. destruct (h !! l) as [[items|props]|]; naive_solver.
Qed.

Lemma createFrequencyMap_returns s h :
  returns_object (Heap.createFrequencyMap s) h (createFrequencyMap s).
Proof.
  exists (fresh (dom h)),
    (<[fresh (dom h) := Heap.Obj (createFrequencyMap s)]> h).
  split; [apply createFrequencyMap_run|]. split.
  - apply object_at_Some, lookup_insert_eq.
  - apply insert_subseteq, fresh_unused.
Qed.

Lemma canFormString_returns h l1 l2 m1 m2 :
  Heap.object_at h l1 = Some m1 →
  Heap.object_at h l2 = Some m2 →
  returns_bool (Heap.canFormString l1 l2) h (canFormString m1 m2).
Proof.
  rewrite !object_at_Some. apply canFormString_run.
Qed.

Lemma findWords_returns s d D h :
  Heap.array_at h d = Some D →
  returns_array (Heap.findWords s d) h (findWords s D).
Proof.
  rewrite array_at_Some. intros Hd.
  destruct (findWords_run s d D h Hd) as (r & h' & Hrun & Hres & _ & Hsub).
  exists r, h'. split; [done|]. split; [|done]. by apply array_at_Some.
Qed.
End StoreRuns.

(** * The cases of [index.test.ts] *)

Example test_formable_words :
  findWords (lit "ate")
    (map lit ["ate"; "eat"; "tea"; "dog"; "do"; "god"; "goo"; "go"; "good"]%string)
  = map lit ["ate"; "eat"; "tea"]%string.
Proof. vm_compute. reflexivity. Qed.

Example test_empty_string :
  findWords (lit "")
    (map lit ["ate"; "eat"; "tea"; "dog"; "do"; "god"; "goo"; "go"; "good"]%string)
  = [].
Proof. vm_compute. reflexivity. Qed.

Example test_empty_dictionary : findWords (lit "ate") [] = [].
Proof. reflexivity. Qed.

Example test_createFrequencyMap_hello :
  createFrequencyMap (lit "hello")
  = {[ lit "h" := 1; lit "e" := 1; lit "l" := 2; lit "o" := 1 ]}.
Proof. vm_compute. reflexivity. Qed.

Example test_string_iterator_pairs :
  string_iterator [0xD83D; 0xDE00; 0x61; 0xD800; 0x62; 0xDC00]
  = [[0xD83D; 0xDE00]; [0x61]; [0xD800]; [0x62]; [0xDC00]].
Proof. reflexivity. Qed.

(** The first case again, run on a store that holds the dictionary at
    location [3]: the result is a new array, the dictionary is untouched. *)
Example test_formable_words_on_store :
  let D := map lit ["ate"; "eat"; "tea"; "dog"; "do"]%string in
  match Heap.findWords (lit "ate") 3%positive {[ 3%positive := Heap.Arr D ]} with
  | Some (r, h') =>
      r ≠ 3%positive
      ∧ Heap.array_at h' r = Some (map lit ["ate"; "eat"; "tea"]%string)
      ∧ Heap.array_at h' 3%positive = Some D
  | None => False
  end.
Proof. vm_compute. repeat split. discriminate. Qed.

(** * The documented properties *)

(** C1: [findWords s D] is the stable filter of [D] by the test
    [canFormString (createFrequencyMap s) (createFrequencyMap w)]: the kept
    words are exactly those that pass, each occurrence on its own, in the
    order of [D]; so the result is a subsequence of [D]. *)
Theorem findWords_stable_filter (s : jsstring) (D : list jsstring) :
  findWords s D
  = List.filter
      (λ w, canFormString (createFrequencyMap s) (createFrequencyMap w)) D
  ∧ findWords s D `sublist_of` D.
Proof.
  rewrite findWords_filter. split; [done|]. apply List_filter_sublist.
Qed.

(** C2: [canFormString source target] is [true] exactly when every key of
    [target] is a key of [source] with a count at least as large; it is
    [true] for an empty [target] whatever [source] is, and [false] for an
    empty [source] and a non-empty [target]. *)
Theorem canFormString_iff_covered (source target : gmap jsstring N) :
  (canFormString source target = true ↔
     ∀ key n, target !! key = Some n →
              ∃ n', source !! key = Some n' ∧ n ≤ n')
  ∧ canFormString source ∅ = true
  ∧ (target ≠ ∅ → canFormString ∅ target = false).
Proof.
  split; [apply canFormString_true|].
  split; [apply canFormString_empty_target | apply canFormString_empty_source].
Qed.

Lemma canFormString_iff_covered_witness :
  canFormString ∅ (createFrequencyMap (lit "apple")) = false.
Proof.
  apply (proj2 (proj2 (canFormString_iff_covered
                         ∅ (createFrequencyMap (lit "apple"))))).
  intros Hempty.
  assert (createFrequencyMap (lit "apple") !! lit "a" = None) as Ha
    by (rewrite Hempty; apply lookup_empty).
  vm_compute in Ha. discriminate Ha.
Defined.

(** C3: [createFrequencyMap s] has a key [c] exactly when [c] is one of the
    characters the iteration of [s] yields; the value at a key is the
    number of times that character is yielded, hence at least [1]; and the
    map of the empty string is empty. *)
Theorem createFrequencyMap_counts (s : jsstring) :
  (∀ c, is_Some (createFrequencyMap s !! c) ↔ c ∈ string_iterator s)
  ∧ (∀ c n, createFrequencyMap s !! c = Some n →
            n = occurrences c (string_iterator s) ∧ 1 ≤ n)
  ∧ createFrequencyMap [] = ∅.
Proof.
  split; [|split; [|reflexivity]].
  - intros c. rewrite <- occurrences_pos, createFrequencyMap_lookup.
    destruct (N.eqb_spec (occurrences c (string_iterator s)) 0) as [E|E].
    + rewrite E. split; [by intros [? ?] | lia].
    + split; [lia | eauto].
  - intros c n. rewrite createFrequencyMap_lookup.
    destruct (N.eqb_spec (occurrences c (string_iterator s)) 0) as [E|E];
      [done|].
    intros [= <-]. lia.
Qed.

Lemma createFrequencyMap_counts_witness :
  2 = occurrences (lit "l") (string_iterator (lit "hello")) ∧ 1 ≤ 2.
Proof.
  apply (proj1 (proj2 (createFrequencyMap_counts (lit "hello"))) (lit "l") 2).
  vm_compute. reflexivity.
Defined.

(** C4 as stated fails: with an empty input string, a dictionary that
    holds the empty string next to another word is not made of empty
    strings only, yet the result is not empty. *)
Lemma findWords_empty_input_mixed_dictionary :
  ¬ (∀ D : list jsstring,
       D ≠ [] → ¬ Forall (λ w, w = []) D → findWords [] D = []).
Proof.
  intros Hclaim.
  assert (findWords [] [lit ""; lit "a"] = []) as Hbad.
  { apply Hclaim; [discriminate|].
    intros Hall. inversion Hall as [|? ? _ Hall'].
    inversion Hall' as [|? ? Ha _]. discriminate Ha. }
  vm_compute in Hbad. discriminate Hbad.
Qed.

(** C4, amended: with an empty input string, [findWords] returns exactly
    the empty-string entries of the dictionary, each occurrence in place.
    The result is empty exactly when the dictionary does not contain the
    empty string, and it is the whole dictionary when the dictionary
    contains only the empty string. *)
Theorem findWords_empty_input (D : list jsstring) :
  findWords [] D = List.filter (λ w, bool_decide (w = [])) D
  ∧ (findWords [] D = [] ↔ [] ∉ D)
  ∧ (Forall (λ w, w = []) D → findWords [] D = D).
Proof.
  assert (findWords [] D = List.filter (λ w, bool_decide (w = [])) D) as Hf.
  { rewrite findWords_filter. apply List_filter_ext_in.
    apply formable_empty_input. }
  split; [done|]. rewrite Hf. split.
  - rewrite List_filter_nil_iff. split.
    + intros Hall Hin. specialize (Hall [] Hin).
      by apply bool_decide_eq_false in Hall.
    + intros Hnot w Hin. apply bool_decide_eq_false_2. by intros ->.
  - intros Hall. apply List_filter_all.
    eapply List.Forall_impl; [|exact Hall].
    intros w ->. by apply bool_decide_eq_true_2.
Qed.

Lemma findWords_empty_input_witness :
  findWords [] [lit ""; lit ""] = [lit ""; lit ""].
Proof.
  apply (proj2 (proj2 (findWords_empty_input [lit ""; lit ""]))).
  repeat constructor.
Defined.

(** C5: monotonicity.  A word formable from [S] is formable from every
    [S'] whose frequency map dominates that of [S]. *)
Theorem formable_monotone (S S' W : jsstring) :
  canFormString (createFrequencyMap S) (createFrequencyMap W) = true →
  dominates (createFrequencyMap S') (createFrequencyMap S) →
  canFormString (createFrequencyMap S') (createFrequencyMap W) = true.
Proof.
  rewrite !canFormString_dominates. intros HSW HS'S c n Hc.
  destruct (HSW c n Hc) as (k & Hk & Hnk).
  destruct (HS'S c k Hk) as (k' & Hk' & Hkk').
  exists k'. split; [done | lia].
Qed.

Lemma formable_monotone_witness :
  canFormString (createFrequencyMap (lit "plate"))
                (createFrequencyMap (lit "eat")) = true.
Proof.
  apply (formable_monotone (lit "ate") (lit "plate") (lit "eat")).
  - vm_compute. reflexivity.
  - apply canFormString_dominates. vm_compute. reflexivity.
Defined.

(** C6: keys are compared by exact equality of code points, with no case
    folding.  One round of the loop changes the count of the character it
    was given and of no other; the count of [c] is the number of iterated
    characters equal to [c]; ["A"] and ["a"] get a key each; and
    [findWords "a" ["A"]] is empty. *)
Theorem exact_code_point_identity :
  (∀ (m : gmap jsstring N) (char c : jsstring),
     count_char m char !! c
     = if decide (char = c) then Some (default 0 (m !! c) + 1) else m !! c)
  ∧ (∀ s c, default 0 (createFrequencyMap s !! c)
            = N.of_nat (length (filter (λ x, x = c) (string_iterator s))))
  ∧ createFrequencyMap (lit "Aa") = {[ lit "A" := 1; lit "a" := 1 ]}
  ∧ lit "A" ≠ lit "a"
  ∧ findWords (lit "a") [lit "A"] = [].
Proof.
  split; [|split; [|split; [|split]]].
  - intros m char c. case_decide as Hc.
    + subst. apply count_char_same.
    + by apply count_char_other.
  - intros s c. rewrite createFrequencyMap_lookup, <- occurrences_filter.
    by destruct (N.eqb_spec (occurrences c (string_iterator s)) 0) as [->|].
  - vm_compute. reflexivity.
  - discriminate.
  - vm_compute. reflexivity.
Qed.

(** C7: the scenario of the type test [testFindWords__canFindStrings]. *)
Theorem findWords_example_scenario :
  findWords (lit "example")
    (map lit ["map"; "pam"; "dog"; "cat"; "lax"; "plea"; "exams"]%string)
  = map lit ["map"; "pam"; "lax"; "plea"]%string.
Proof. vm_compute. reflexivity. Qed.

(** C9: the counts of [createFrequencyMap s] add up to the number of
    characters the iteration of [s] yields, that is, to the number of code
    points of [s].  For a string without surrogates this is its length; a
    surrogate pair is two code units and counts once. *)
Theorem createFrequencyMap_total (s : jsstring) :
  total_count (createFrequencyMap s) = N.of_nat (length (string_iterator s))
  ∧ (Forall (λ u, is_high_surrogate u = false) s →
     total_count (createFrequencyMap s) = N.of_nat (length s))
  ∧ total_count (createFrequencyMap [0xD83D; 0xDE00]) = 1.
Proof.
  assert (total_count (createFrequencyMap s)
          = N.of_nat (length (string_iterator s))) as Htotal.
  { unfold createFrequencyMap.
    rewrite total_count_fold, total_count_empty. lia. }
  split; [done|]. split; [|vm_compute; reflexivity].
  intros Hbmp. rewrite Htotal, string_iterator_bmp by done.
  by rewrite length_map.
Qed.

Lemma createFrequencyMap_total_witness :
  total_count (createFrequencyMap (lit "hello")) = 5.
Proof.
  apply (proj1 (proj2 (createFrequencyMap_total (lit "hello")))).
  repeat constructor.
Defined.

(** C10: [findWords] distributes over the concatenation of dictionaries. *)
Theorem findWords_app (s : jsstring) (D1 D2 : list jsstring) :
  findWords s (D1 ++ D2) = findWords s D1 ++ findWords s D2.
Proof. rewrite !findWords_filter. apply List.filter_app. Qed.

(** C8: determinism.  Run on the store, each of the three functions
    returns the value the corresponding function of its arguments gives,
    whatever else the store holds and wherever the arguments live in it, and
    leaves every cell that was in the store unchanged; so two runs on the
    same arguments return the same map, the same boolean, and the same
    words in the same order. *)
Theorem runs_are_deterministic :
  (∀ s (h1 h2 : Heap.heap),
     returns_object (Heap.createFrequencyMap s) h1 (createFrequencyMap s) ∧
     returns_object (Heap.createFrequencyMap s) h2 (createFrequencyMap s))
  ∧ (∀ m1 m2 (h1 h2 : Heap.heap) a1 b1 a2 b2,
       Heap.object_at h1 a1 = Some m1 → Heap.object_at h1 b1 = Some m2 →
       Heap.object_at h2 a2 = Some m1 → Heap.object_at h2 b2 = Some m2 →
       returns_bool (Heap.canFormString a1 b1) h1 (canFormString m1 m2) ∧
       returns_bool (Heap.canFormString a2 b2) h2 (canFormString m1 m2))
  ∧ (∀ s D (h1 h2 : Heap.heap) d1 d2,
       Heap.array_at h1 d1 = Some D → Heap.array_at h2 d2 = Some D →
       returns_array (Heap.findWords s d1) h1 (findWords s D) ∧
       returns_array (Heap.findWords s d2) h2 (findWords s D)).
Proof.
  split; [|split].
  - intros s h1 h2. split; apply createFrequencyMap_returns.
  - intros m1 m2 h1 h2 a1 b1 a2 b2 Ha1 Hb1 Ha2 Hb2.
    split; by apply canFormString_returns.
  - intros s D h1 h2 d1 d2 Hd1 Hd2. split; by apply findWords_returns.
Qed.

Lemma runs_are_deterministic_witness :
  let D := map lit ["ate"; "dog"; "tea"]%string in
  let h1 : Heap.heap := {[ 1%positive := Heap.Arr D ]} in
  let h2 : Heap.heap :=
    {[ 1%positive := Heap.Obj {[ lit "x" := 7 ]};
       2%positive := Heap.Arr [lit "left over"];
       5%positive := Heap.Arr D ]} in
  returns_array (Heap.findWords (lit "ate") 1%positive) h1
    (findWords (lit "ate") D) ∧
  returns_array (Heap.findWords (lit "ate") 5%positive) h2
    (findWords (lit "ate") D).
Proof.
  intros D h1 h2.
  apply (proj2 (proj2 runs_are_deterministic) (lit "ate") D h1 h2).
  - vm_compute. reflexivity.
  - vm_compute. reflexivity.
Defined.

(** * Further facts about the three functions *)

Section Multisets.
Implicit Types (s w : jsstring) (c : jsstring) (chars : list jsstring)
  (m : gmap jsstring N) (D : list jsstring).

Lemma occurrences_app c chars1 chars2 :
  occurrences c (chars1 ++ chars2)
  = occurrences c chars1 + occurrences c chars2.
Proof.
  induction chars1 as [|x chars1 IH]; simpl; [done|]. rewrite IH. lia.
Qed.

Lemma occurrences_count_occ c chars :
  occurrences c chars = N.of_nat (count_occ (decide_rel (=)) chars c).
Proof.
  induction chars as [|x chars IH]; simpl; [done|].
  rewrite IH. case_bool_decide as Hx; destruct (decide_rel eq x c); try done; lia.
Qed.

Lemma occurrences_Permutation chars1 chars2 :
  chars1 ≡ₚ chars2 ↔ ∀ c, occurrences c chars1 = occurrences c chars2.
Proof.
  rewrite (Permutation_count_occ (decide_rel (=))). split.
  - intros Hcount c. by rewrite !occurrences_count_occ, Hcount.
  - intros Hocc c. specialize (Hocc c).
    rewrite !occurrences_count_occ in Hocc. lia.
Qed.

Lemma createFrequencyMap_default s c :
  default 0 (createFrequencyMap s !! c) = occurrences c (string_iterator s).
Proof.
  rewrite createFrequencyMap_lookup.
  by destruct (N.eqb_spec (occurrences c (string_iterator s)) 0) as [->|].
Qed.

Lemma createFrequencyMap_eq_iff s w :
  createFrequencyMap s = createFrequencyMap w
  ↔ ∀ c, occurrences c (string_iterator s) = occurrences c (string_iterator w).
Proof.
  split.
  - intros Heq c. by rewrite <- !createFrequencyMap_default, Heq.
  - intros Hocc. apply map_eq. intros c.
    by rewrite !createFrequencyMap_lookup, Hocc.
Qed.

Lemma formable_occurrences s w :
  formable s w = true
  ↔ ∀ c, occurrences c (string_iterator w) ≤ occurrences c (string_iterator s).
Proof.
  unfold formable. rewrite canFormString_true. split.
  - intros Hcov c.
    destruct (N.eqb_spec (occurrences c (string_iterator w)) 0) as [E|E];
      [lia|].
    destruct (Hcov c (occurrences c (string_iterator w))) as (n' & Hn' & Hle).
    { rewrite createFrequencyMap_lookup.
      by destruct (N.eqb_spec (occurrences c (string_iterator w)) 0). }
    pose proof (createFrequencyMap_default s c) as Hs.
    rewrite Hn' in Hs. simpl in Hs. lia.
  - intros Hocc c n. rewrite !createFrequencyMap_lookup.
    specialize (Hocc c).
    destruct (N.eqb_spec (occurrences c (string_iterator w)) 0) as [E|E];
      [done|].
    intros [= <-].
    destruct (N.eqb_spec (occurrences c (string_iterator s)) 0) as [E'|E'];
      [lia|].
    eauto.
Qed.

Lemma canFormString_refl m : canFormString m m = true.
Proof. apply canFormString_true. intros key n Hn. exists n. by split. Qed.

Lemma canFormString_trans m1 m2 m3 :
  canFormString m1 m2 = true → canFormString m2 m3 = true →
  canFormString m1 m3 = true.
Proof.
  rewrite !canFormString_true. intros H12 H23 key n Hn.
  destruct (H23 key n Hn) as (n2 & Hn2 & Hle2).
  destruct (H12 key n2 Hn2) as (n1 & Hn1 & Hle1).
  exists n1. split; [done | lia].
Qed.

Lemma canFormString_antisym m1 m2 :
  canFormString m1 m2 = true → canFormString m2 m1 = true → m1 = m2.
Proof.
  rewrite !canFormString_true. intros H12 H21.
  apply map_eq. intros key.
  destruct (m1 !! key) as [n1|] eqn:E1, (m2 !! key) as [n2|] eqn:E2.
  - destruct (H12 key n2 E2) as (a & Ha & Hle1).
    destruct (H21 key n1 E1) as (b & Hb & Hle2).
    f_equal. assert (a = n1) by congruence. assert (b = n2) by congruence.
    lia.
  - destruct (H21 key n1 E1) as (b & Hb & _). congruence.
  - destruct (H12 key n2 E2) as (a & Ha & _). congruence.
  - done.
Qed.

Lemma total_count_delete m c n :
  m !! c = Some n → total_count m = n + total_count (delete c m).
Proof.
  intros Hc. unfold total_count.
  rewrite (map_fold_delete_L _ _ c n m); [done|intros; lia|done].
Qed.

Lemma total_count_dominates small : ∀ big,
  dominates big small → total_count small ≤ total_count big.
Proof.
  induction small as [|k v small Hk IH] using map_ind; intros big Hdom.
  - rewrite total_count_empty. lia.
  - destruct (Hdom k v) as (v' & Hbig & Hle); [apply lookup_insert_eq|].
    rewrite total_count_insert_fresh by done.
    rewrite (total_count_delete big k v') by done.
    assert (dominates (delete k big) small) as Hrest.
    { intros c n Hc.
      assert (c ≠ k) as Hne by (intros ->; congruence).
      destruct (Hdom c n) as (n' & Hn' & Hnn').
      { by rewrite lookup_insert_ne. }
      exists n'. split; [|done]. by rewrite lookup_delete_ne. }
    specialize (IH _ Hrest). lia.
Qed.

Lemma splits_pair_tail (u : code_unit) s1 s2 :
  splits_pair (u :: s1) s2 = false → splits_pair s1 s2 = false.
Proof. destruct s1 as [|v s1]; [done|]. unfold splits_pair. by simpl. Qed.

Lemma string_iterator_app_bounded (n : nat) : ∀ s1 s2,
  (length s1 ≤ n)%nat →
  splits_pair s1 s2 = false →
  string_iterator (s1 ++ s2) = string_iterator s1 ++ string_iterator s2.
Proof.
  induction n as [|n IH]; intros s1 s2 Hlen Hseam.
  - destruct s1; [done | simpl in Hlen; lia].
  - destruct s1 as [|u rest]; [done|]. simpl in Hlen.
    assert (string_iterator (rest ++ s2)
            = string_iterator rest ++ string_iterator s2) as Hrest.
    { apply IH; [lia|]. by eapply splits_pair_tail. }
    simpl. destruct (is_high_surrogate u) eqn:Hu; [|by rewrite Hrest].
    destruct rest as [|v rest'].
    + simpl. destruct s2 as [|v s2']; [done|].
      unfold splits_pair in Hseam. simpl in Hseam. rewrite Hu in Hseam.
      simpl in Hseam. by rewrite Hseam.
    + simpl. destruct (is_low_surrogate v).
      * simpl in Hlen. rewrite IH; [done|lia|].
        by do 2 eapply splits_pair_tail.
      * simpl in Hrest. by rewrite Hrest.
Qed.

Lemma string_iterator_app s1 s2 :
  splits_pair s1 s2 = false →
  string_iterator (s1 ++ s2) = string_iterator s1 ++ string_iterator s2.
Proof. by apply (string_iterator_app_bounded (length s1)). Qed.

Lemma List_filter_idem (f : jsstring → bool) D :
  List.filter f (List.filter f D) = List.filter f D.
Proof.
  induction D as [|w D IH]; simpl; [done|].
  destruct (f w) eqn:Hw; simpl; [by rewrite Hw, IH | done].
Qed.

Lemma List_filter_sublist_mono (f g : jsstring → bool) D :
  (∀ w, f w = true → g w = true) →
  List.filter f D `sublist_of` List.filter g D
  ∧ List.filter f (List.filter g D) = List.filter f D.
Proof.
  intros Hfg. induction D as [|w D [IH1 IH2]]; simpl; [by split; constructor|].
  destruct (f w) eqn:Hf.
  - rewrite (Hfg w Hf). simpl. rewrite Hf, IH2. split; [by constructor | done].
  - destruct (g w); simpl; [rewrite Hf|]; split; try done. by constructor.
Qed.
End Multisets.

(** X1: [canFormString] orders frequency maps.  Every map covers itself;
    coverage composes; and two maps that cover each other are the same
    map. *)
Theorem canFormString_order :
  (∀ m : gmap jsstring N, canFormString m m = true)
  ∧ (∀ m1 m2 m3 : gmap jsstring N,
       canFormString m1 m2 = true → canFormString m2 m3 = true →
       canFormString m1 m3 = true)
  ∧ (∀ m1 m2 : gmap jsstring N,
       canFormString m1 m2 = true → canFormString m2 m1 = true → m1 = m2).
Proof.
  split; [apply canFormString_refl|].
  split; [apply canFormString_trans | apply canFormString_antisym].
Qed.

Lemma canFormString_order_witness :
  canFormString (createFrequencyMap (lit "example"))
                (createFrequencyMap (lit "a")) = true.
Proof.
  apply (proj1 (proj2 canFormString_order)
           (createFrequencyMap (lit "example"))
           (createFrequencyMap (lit "lax"))
           (createFrequencyMap (lit "a"))).
  - vm_compute. reflexivity.
  - vm_compute. reflexivity.
Defined.

(** X2: a word passes the test of [findWords] exactly when each character
    occurs in the word at most as often as in the input string: every
    letter of the input may be used up to once per word. *)
Theorem formable_iff_occurrences (inputString word : jsstring) :
  canFormString (createFrequencyMap inputString) (createFrequencyMap word)
    = true
  ↔ ∀ c, occurrences c (string_iterator word)
         ≤ occurrences c (string_iterator inputString).
Proof. apply formable_occurrences. Qed.

Lemma formable_iff_occurrences_witness :
  canFormString (createFrequencyMap (lit "hello"))
                (createFrequencyMap (lit "lol")) = true.
Proof.
  apply (proj2 (formable_iff_occurrences (lit "hello") (lit "lol"))).
  intros c. rewrite <- !createFrequencyMap_default.
  destruct (decide (c = lit "l")) as [->|Hl]; [vm_compute; discriminate|].
  destruct (decide (c = lit "o")) as [->|Ho]; [vm_compute; discriminate|].
  rewrite (createFrequencyMap_default (lit "lol")). simpl.
  rewrite !bool_decide_eq_false_2 by done. simpl. lia.
Defined.

(** X3: what a formable word cannot be.  It has no more code points than
    the input string, and each of its characters occurs in the input
    string; so a longer word, or a word with a letter the input lacks, is
    never kept. *)
Theorem formable_necessary (inputString word : jsstring) :
  canFormString (createFrequencyMap inputString) (createFrequencyMap word)
    = true →
  (length (string_iterator word) ≤ length (string_iterator inputString))%nat
  ∧ ∀ c, c ∈ string_iterator word → c ∈ string_iterator inputString.
Proof.
  intros Hform. split.
  - apply canFormString_dominates, total_count_dominates in Hform.
    unfold createFrequencyMap in Hform.
    rewrite !total_count_fold, total_count_empty in Hform. lia.
  - intros c. rewrite <- !occurrences_pos.
    pose proof (proj1 (formable_occurrences inputString word) Hform c). lia.
Qed.

Lemma formable_necessary_witness :
  (length (string_iterator (lit "plea"))
   ≤ length (string_iterator (lit "example")))%nat
  ∧ ∀ c, c ∈ string_iterator (lit "plea")
         → c ∈ string_iterator (lit "example").
Proof.
  apply (formable_necessary (lit "example") (lit "plea")).
  vm_compute. reflexivity.
Defined.

(** X4: two strings have the same frequency map exactly when one is a
    rearrangement of the code points of the other; and two strings are
    formable from each other exactly in that case. *)
Theorem createFrequencyMap_anagram (s w : jsstring) :
  (createFrequencyMap s = createFrequencyMap w
   ↔ string_iterator s ≡ₚ string_iterator w)
  ∧ (canFormString (createFrequencyMap s) (createFrequencyMap w) = true
     ∧ canFormString (createFrequencyMap w) (createFrequencyMap s) = true
     ↔ string_iterator s ≡ₚ string_iterator w).
Proof.
  assert (createFrequencyMap s = createFrequencyMap w
          ↔ string_iterator s ≡ₚ string_iterator w) as Hmaps.
  { by rewrite createFrequencyMap_eq_iff, occurrences_Permutation. }
  split; [done|]. rewrite <- Hmaps. split.
  - intros [Hsw Hws]. by apply canFormString_antisym.
  - intros ->. split; apply canFormString_refl.
Qed.

Lemma createFrequencyMap_anagram_witness :
  createFrequencyMap (lit "ate") = createFrequencyMap (lit "tea").
Proof.
  apply (proj2 (proj1 (createFrequencyMap_anagram (lit "ate") (lit "tea")))).
  change (string_iterator (lit "ate")) with [lit "a"; lit "t"; lit "e"].
  change (string_iterator (lit "tea")) with [lit "t"; lit "e"; lit "a"].
  apply Permutation_cons_append.
Defined.

(** X5: [findWords] sees the input string only through its letters: two
    input strings that are rearrangements of each other select the same
    words from every dictionary. *)
Theorem findWords_anagram_input (s s' : jsstring) (D : list jsstring) :
  string_iterator s ≡ₚ string_iterator s' →
  findWords s D = findWords s' D.
Proof.
  intros Hperm.
  assert (createFrequencyMap s = createFrequencyMap s') as Heq.
  { apply createFrequencyMap_eq_iff. by apply occurrences_Permutation. }
  unfold findWords. by rewrite Heq.
Qed.

Lemma findWords_anagram_input_witness :
  findWords (lit "ate") (map lit ["eat"; "dog"; "at"]%string)
  = findWords (lit "eta") (map lit ["eat"; "dog"; "at"]%string).
Proof.
  apply (findWords_anagram_input (lit "ate") (lit "eta")).
  change (string_iterator (lit "ate")) with [lit "a"; lit "t"; lit "e"].
  change (string_iterator (lit "eta")) with [lit "e"; lit "t"; lit "a"].
  etransitivity; [apply Permutation_cons_append|]. apply perm_swap.
Defined.

(** X6: counting a concatenation.  Unless the seam joins the two halves of
    a surrogate pair, the count of every character in [s1 ++ s2] is the
    sum of its counts in [s1] and in [s2]; both parts are then formable
    from the whole. *)
Theorem createFrequencyMap_app (s1 s2 : jsstring) :
  splits_pair s1 s2 = false →
  (∀ c, default 0 (createFrequencyMap (s1 ++ s2) !! c)
        = default 0 (createFrequencyMap s1 !! c)
          + default 0 (createFrequencyMap s2 !! c))
  ∧ canFormString (createFrequencyMap (s1 ++ s2)) (createFrequencyMap s1)
    = true
  ∧ canFormString (createFrequencyMap (s1 ++ s2)) (createFrequencyMap s2)
    = true.
Proof.
  intros Hseam.
  assert (∀ c, occurrences c (string_iterator (s1 ++ s2))
               = occurrences c (string_iterator s1)
                 + occurrences c (string_iterator s2)) as Hsum.
  { intros c. by rewrite string_iterator_app, occurrences_app. }
  split; [|split].
  - intros c. by rewrite !createFrequencyMap_default.
  - apply formable_occurrences. intros c. rewrite Hsum. lia.
  - apply formable_occurrences. intros c. rewrite Hsum. lia.
Qed.

Lemma createFrequencyMap_app_witness :
  canFormString (createFrequencyMap (lit "ex" ++ lit "ample"))
                (createFrequencyMap (lit "ample")) = true.
Proof.
  apply (proj2 (proj2 (createFrequencyMap_app (lit "ex") (lit "ample")
                         eq_refl))).
Defined.

(** The seam matters: the two halves of a surrogate pair, counted apart,
    are two characters; joined, they are one. *)
Example createFrequencyMap_app_split_pair :
  splits_pair [0xD83D] [0xDE00] = true
  ∧ createFrequencyMap ([0xD83D] ++ [0xDE00]) = {[ [0xD83D; 0xDE00] := 1 ]}
  ∧ createFrequencyMap [0xD83D] = {[ [0xD83D] := 1 ]}
  ∧ createFrequencyMap [0xDE00] = {[ [0xDE00] := 1 ]}.
Proof. vm_compute. by repeat split. Qed.

(** X7: filtering twice changes nothing: the words [findWords] returns for
    [s] are all returned again when they are given back as the
    dictionary. *)
Theorem findWords_idempotent (s : jsstring) (D : list jsstring) :
  findWords s (findWords s D) = findWords s D.
Proof. rewrite !findWords_filter. apply List_filter_idem. Qed.

(** X8: more letters, more words.  When the frequency map of [s'] dominates
    that of [s], the words found for [s] are found for [s'] too, in the same
    order, and they are what [s] selects among the words found for [s']. *)
Theorem findWords_monotone_input (s s' : jsstring) (D : list jsstring) :
  dominates (createFrequencyMap s') (createFrequencyMap s) →
  findWords s D `sublist_of` findWords s' D
  ∧ findWords s (findWords s' D) = findWords s D.
Proof.
  intros Hdom. rewrite !findWords_filter.
  apply List_filter_sublist_mono. intros w Hw. unfold formable in *.
  eapply canFormString_trans; [|exact Hw]. by apply canFormString_dominates.
Qed.

Lemma findWords_monotone_input_witness :
  findWords (lit "ate") (map lit ["tea"; "late"; "at"]%string)
    `sublist_of` findWords (lit "plate") (map lit ["tea"; "late"; "at"]%string)
  ∧ findWords (lit "ate")
      (findWords (lit "plate") (map lit ["tea"; "late"; "at"]%string))
    = findWords (lit "ate") (map lit ["tea"; "late"; "at"]%string).
Proof.
  apply (findWords_monotone_input (lit "ate") (lit "plate")).
  apply canFormString_dominates. vm_compute. reflexivity.
Defined.

(** X9: the array [findWords] returns is a new one.  Run on a store that
    holds the dictionary, the call succeeds, its result lives at a
    location the store did not use before, hence not at the dictionary's,
    even when every word is kept, and the dictionary still holds the same
    words afterwards. *)
Theorem findWords_returns_new_array (s : jsstring) (D : list jsstring)
    (d : Heap.loc) (h : Heap.heap) :
  Heap.array_at h d = Some D →
  ∃ r h',
    Heap.findWords s d h = Some (r, h')
    ∧ h !! r = None
    ∧ r ≠ d
    ∧ Heap.array_at h' r = Some (findWords s D)
    ∧ Heap.array_at h' d = Some D.
Proof.
  rewrite array_at_Some. intros Hd.
  destruct (findWords_run s d D h Hd) as (r & h' & Hrun & Hres & Hnew & Hsub).
  exists r, h'. split; [done|]. split; [done|]. split; [congruence|].
  split; apply array_at_Some; [done|].
  by apply (lookup_weaken h h').
Qed.

Lemma findWords_returns_new_array_witness :
  ∃ r h',
    Heap.findWords (lit "ate") 1%positive
      {[ 1%positive := Heap.Arr [lit "tea"; lit "eat"] ]} = Some (r, h')
    ∧ ({[ 1%positive := Heap.Arr [lit "tea"; lit "eat"] ]} : Heap.heap) !! r
      = None
    ∧ r ≠ 1%positive
    ∧ Heap.array_at h' r
      = Some (findWords (lit "ate") [lit "tea"; lit "eat"])
    ∧ Heap.array_at h' 1%positive = Some [lit "tea"; lit "eat"].
Proof.
  apply (findWords_returns_new_array (lit "ate") [lit "tea"; lit "eat"]
           1%positive {[ 1%positive := Heap.Arr [lit "tea"; lit "eat"] ]}).
  vm_compute. reflexivity.
Defined.

(** * The type aliases against the functions they describe *)

Section TypeAliases.
Variable Lowercase : jsstring → jsstring.
Implicit Types (S s w : jsstring) (Acc m : gmap jsstring N)
  (D : list jsstring) (T : Types.boolean_type).

Lemma NormalizeBoolean_true T :
  Types.NormalizeBoolean T
  = if Types.extends_true T then Types.TTrue else Types.TFalse.
Proof. by destruct T. Qed.

Lemma extends_true_union T1 T2 :
  Types.extends_true (Types.union T1 T2)
  = Types.extends_true T1 && Types.extends_true T2.
Proof. by destruct T1, T2. Qed.

Lemma key_answer_covered m e :
  Types.extends_true (Types.key_answer m e) = entry_covered m e.
Proof.
  destruct e as [K n2]. unfold Types.key_answer, entry_covered, Types.LtOrEq.
  destruct (m !! K) as [n1|]; [|done]. by destruct (n2 <=? n1).
Qed.

Lemma CanFormString_runtime m1 m2 :
  Types.CanFormString m1 m2
  = if canFormString m1 m2 then Types.TTrue else Types.TFalse.
Proof.
  unfold Types.CanFormString, canFormString. rewrite NormalizeBoolean_true.
  induction (map_to_list m2) as [|e es IH]; simpl; [done|].
  rewrite extends_true_union, key_answer_covered.
  destruct (entry_covered m1 e); [exact IH | done].
Qed.




Lemma FindWords_filter S D : ∀ (Acc : list jsstring) m,
  Types.FindWords Lowercase S D Acc m
  = Acc ++ List.filter
             (λ w, canFormString m (Types.StringToFrequencyMap Lowercase w ∅))
             D.
Proof.
  induction D as [|Head Tail IH]; intros Acc m; simpl.
  - by rewrite app_nil_r.
  - rewrite CanFormString_runtime.
    destruct (canFormString m _); simpl; rewrite IH;
      [by rewrite <- app_assoc | done].
Qed.

Lemma string_iterator_single (u : code_unit) : string_iterator [u] = [[u]].
Proof. simpl. by destruct (is_high_surrogate u). Qed.

Lemma formable_other_unit (u v : code_unit) :
  u ≠ v → formable [v] [u] = false.
Proof.
  intros Hne. apply not_true_is_false. rewrite formable_occurrences.
  intros Hocc. specialize (Hocc [u]).
  rewrite !string_iterator_single in Hocc. simpl in Hocc.
  rewrite bool_decide_eq_true_2 in Hocc by done.
  rewrite bool_decide_eq_false_2 in Hocc by congruence. lia.
Qed.
End TypeAliases.

(** The type tests at the end of [types.ts], with [Lowercase] on ASCII. *)
Example testStringToFrequencyMap__word :
  Types.StringToFrequencyMap Types.ascii_lowercase (lit "apple") ∅
  = {[ lit "a" := 1; lit "p" := 2; lit "l" := 1; lit "e" := 1 ]}.
Proof. vm_compute. reflexivity. Qed.

Example testStringToFrequencyMap__emptyString :
  Types.StringToFrequencyMap Types.ascii_lowercase (lit "") ∅ = ∅.
Proof. reflexivity. Qed.

Example testNormalizeBoolean :
  Types.NormalizeBoolean Types.TTrue = Types.TTrue
  ∧ Types.NormalizeBoolean Types.TFalse = Types.TFalse
  ∧ Types.NormalizeBoolean Types.TBoolean = Types.TFalse.
Proof. by repeat split. Qed.

Example testCanFormString :
  let F := λ s, Types.StringToFrequencyMap Types.ascii_lowercase (lit s) ∅ in
  (Types.CanFormString (F "") (F "") = Types.TTrue
   ∧ Types.CanFormString (F "") (F "apple") = Types.TFalse
   ∧ Types.CanFormString (F "apple") (F "") = Types.TTrue
   ∧ Types.CanFormString (F "example") (F "map") = Types.TTrue
   ∧ Types.CanFormString (F "example") (F "maps") = Types.TFalse)%string.
Proof. vm_compute. by repeat split. Qed.

Example testFindWords :
  let F := λ s D,
    Types.FindWords Types.ascii_lowercase (lit s) (map lit D) []
      (Types.StringToFrequencyMap Types.ascii_lowercase (lit s) ∅) in
  (F "" [] = []
   ∧ F "apple" [] = []
   ∧ F "" ["map"; "pam"] = []
   ∧ F "example" ["map"; "pam"; "dog"; "cat"; "lax"; "plea"; "exams"]
     = map lit ["map"; "pam"; "lax"; "plea"]
   ∧ F "example" ["dog"; "cat"; "banana"] = [])%string.
Proof. vm_compute. by repeat split. Qed.







(** X14: outside such literals the types and the functions part ways.  For
    two different code units [u] and [v] with lowercase [v], the type
    [FindWords<v, [u]>] keeps the word [u], while [findWords(v, [u])]
    returns no word: the types fold case and the functions do not. *)
Theorem FindWords_type_folds_case
    (Lowercase : jsstring → jsstring) (u v : code_unit) :
  u ≠ v →
  Lowercase [u] = [v] →
  Lowercase [v] = [v] →
  Types.FindWords Lowercase [v] [[u]] []
    (Types.StringToFrequencyMap Lowercase [v] ∅) = [[u]]
  ∧ findWords [v] [[u]] = [].
Proof.
  intros Hne Hu Hv. split.
  - rewrite FindWords_filter. simpl. rewrite Hu, Hv.
    by rewrite canFormString_refl.
  - rewrite findWords_filter. simpl. by rewrite formable_other_unit.
Qed.

Lemma FindWords_type_folds_case_witness :
  Types.FindWords Types.ascii_lowercase (lit "a") [lit "A"] []
    (Types.StringToFrequencyMap Types.ascii_lowercase (lit "a") ∅)
  = [lit "A"]
  ∧ findWords (lit "a") [lit "A"] = [].
Proof.
  apply (FindWords_type_folds_case Types.ascii_lowercase 0x41 0x61).
  - discriminate.
  - reflexivity.
  - reflexivity.
Defined.

(** X15: every call of [createFrequencyMap] builds a map of its own.  Two
    calls in a row return two different objects, each holding the counts of
    its own string; the second call leaves the first map as it was. *)
Theorem createFrequencyMap_builds_separate_maps
    (s1 s2 : jsstring) (h : Heap.heap) :
  ∃ l1 h1 l2 h2,
    Heap.createFrequencyMap s1 h = Some (l1, h1)
    ∧ Heap.createFrequencyMap s2 h1 = Some (l2, h2)
    ∧ l1 ≠ l2
    ∧ Heap.object_at h2 l1 = Some (createFrequencyMap s1)
    ∧ Heap.object_at h2 l2 = Some (createFrequencyMap s2)
    ∧ h ⊆ h2.
Proof.
  set (l1 := fresh (dom h)).
  set (h1 := <[l1 := Heap.Obj (createFrequencyMap s1)]> h).
  set (l2 := fresh (dom h1)).
  exists l1, h1, l2, (<[l2 := Heap.Obj (createFrequencyMap s2)]> h1).
  assert (l1 ≠ l2) as Hne.
  { apply fresh_other. unfold h1. rewrite lookup_insert_eq. eauto. }
  split; [apply createFrequencyMap_run|].
  split; [apply createFrequencyMap_run|].
  split; [done|]. split; [|split].
  - apply object_at_Some. rewrite lookup_insert_ne by done.
    apply lookup_insert_eq.
  - apply object_at_Some, lookup_insert_eq.
  - transitivity h1; apply insert_subseteq, fresh_unused.
Qed.
